(** * The node/edge counter of mock-c-project (src/graph.c, src/main.c)

    The two counters of graph.c are file-static [int]s; the three public
    functions read and write them.  They are embedded here as actions of a
    small state-and-error monad over a record holding the two counters. *)

From Stdlib Require Import ZArith String Ascii Bool Lia DecimalString List.
Import ListNotations.
Local Open Scope Z_scope.

(** ** C [int] *)

Module CInt.

Definition INT_MAX : Z := 2147483647.
Definition INT_MIN : Z := -2147483648.

(** The values an [int] object can hold. *)
Definition in_range (z : Z) : bool := (INT_MIN <=? z) && (z <=? INT_MAX).

End CInt.
Import CInt.

(** ** Outcomes

    Signed overflow is undefined in C, so an addition whose mathematical
    result does not fit an [int] has no defined value.  The model gives such
    a step the single error outcome below (the name is the spec's). *)

Inductive error : Type := CounterOverflow.

Inductive result (A : Type) : Type :=
| Ok (a : A)
| Err (e : error).
Arguments Ok {A} a.
Arguments Err {A} e.

(** ** State: the two static counters of graph.c *)

Record graph : Type := mkGraph { nodes : Z; edges : Z }.

(** Both counters are [int] objects. *)
Definition wf (g : graph) : Prop :=
  in_range (nodes g) = true /\ in_range (edges g) = true.

(** [static int nodes = 0; static int edges = 0;] *)
Definition initial : graph := mkGraph 0 0.

(** ** The monad of the translation unit *)

Definition M (A : Type) : Type := graph -> result (A * graph).

Definition ret {A} (a : A) : M A := fun g => Ok (a, g).

Definition bind {A B} (m : M A) (k : A -> M B) : M B :=
  fun g => match m g with
           | Ok (a, g') => k a g'
           | Err e => Err e
           end.

Notation "x <- m ;; k" := (bind m (fun x => k))
  (at level 61, m at next level, right associativity).
Notation "m ;; k" := (bind m (fun _ => k))
  (at level 61, right associativity).

Definition get_nodes : M Z := fun g => Ok (nodes g, g).
Definition get_edges : M Z := fun g => Ok (edges g, g).
Definition set_nodes (z : Z) : M unit := fun g => Ok (tt, mkGraph z (edges g)).
Definition set_edges (z : Z) : M unit := fun g => Ok (tt, mkGraph (nodes g) z).

(** Modelled from the spec: [add] of util/math.h, which graph.c calls and
    which is not among the sources.  The spec reads [add(x, 1)] as "increment
    x by 1" and calls overflow of the counters undefined behaviour: the sum
    when it fits an [int], no defined result otherwise. *)
Definition add (a b : Z) : M Z :=
  fun g => if in_range (a + b) then Ok (a + b, g) else Err CounterOverflow.

(** ** graph.c *)

Definition graph_init : M unit :=
  set_nodes 0 ;;
  set_edges 0.

Definition graph_add_node (id : Z) : M Z :=
  n <- get_nodes ;;
  n' <- add n 1 ;;
  set_nodes n' ;;
  n1 <- get_nodes ;;
  (if n1 >? 1
   then e <- get_edges ;; e' <- add e 1 ;; set_edges e'
   else ret tt) ;;
  get_nodes.

Definition graph_edge_count : M Z := get_edges.

(** ** Callers

    A caller is a sequence of calls of the three functions; [trace] gives, for
    each call, the value it returned and the counters after it. *)

Inductive call : Type :=
| CInit
| CAddNode (id : Z)
| CEdgeCount.

Inductive value : Type :=
| VVoid
| VInt (z : Z).

Definition exec (c : call) : M value :=
  match c with
  | CInit => graph_init ;; ret VVoid
  | CAddNode id => r <- graph_add_node id ;; ret (VInt r)
  | CEdgeCount => r <- graph_edge_count ;; ret (VInt r)
  end.

Fixpoint trace (cs : list call) (g : graph) : result (list (value * graph)) :=
  match cs with
  | [] => Ok []
  | c :: cs' =>
      match exec c g with
      | Err e => Err e
      | Ok (v, g') =>
          match trace cs' g' with
          | Err e => Err e
          | Ok tr => Ok ((v, g') :: tr)
          end
      end
  end.

(** The values returned, in call order. *)
Definition returns (tr : list (value * graph)) : list value := map fst tr.

(** What the caller sees of a run: the values returned, or the error. *)
Definition run (cs : list call) (g : graph) : result (list value) :=
  match trace cs g with
  | Ok tr => Ok (returns tr)
  | Err e => Err e
  end.

(** The counters after the last call ([g] when there was none). *)
Definition final (g : graph) (tr : list (value * graph)) : graph :=
  last (map snd tr) g.

(** A state is reachable when some caller gets there from the statically
    initialised counters. *)
Inductive reachable : graph -> Prop :=
| reach_initial : reachable initial
| reach_step c g v g' : reachable g -> exec c g = Ok (v, g') -> reachable g'.

(** The data-model invariant of the spec. *)
Definition inv (g : graph) : Prop := edges g = Z.max (nodes g - 1) 0.

(** No increment of [graph_add_node] overflows in [g]. *)
Definition no_overflow (g : graph) : Prop :=
  nodes g < INT_MAX /\ (1 < nodes g + 1 -> edges g < INT_MAX).

(** Both counters never go down along [g], [gs]. *)
Fixpoint nondecreasing (g : graph) (gs : list graph) : Prop :=
  match gs with
  | [] => True
  | g' :: rest =>
      nodes g <= nodes g' /\ edges g <= edges g' /\ nondecreasing g' rest
  end.

(** A call with its [id] argument, if any, replaced by 0. *)
Definition erase_id (c : call) : call :=
  match c with
  | CAddNode _ => CAddNode 0
  | _ => c
  end.

(** ** main.c *)

Section Main.

(** [ORCHARD_VERSION] comes from generated/autogen.h and [current_platform]
    from the platform sources; neither is among the sources, and both are
    plain strings. *)
Variable ORCHARD_VERSION : string.
Variable platform_name : string.

(** Modelled from the spec: [plugin_answer] of plugins/plugin.h, not among
    the sources.  The spec lists the plugin stub with the scaffolding that
    has no runtime logic, and the counters are [static] in graph.c, out of
    its reach: it returns some [int] and leaves the counters alone. *)
Variable plugin_value : Z.
Definition plugin_answer : M Z := ret plugin_value.

Definition orchard_version : M string := ret ORCHARD_VERSION.
Definition current_platform : M string := ret platform_name.

(** [%d] of printf. *)
Definition print_int (z : Z) : string := NilZero.string_of_int (Z.to_int z).

Definition newline : string := String (ascii_of_nat 10) EmptyString.

(** [printf("Orchard %s on %s: edges=%d\n", ...)], as the text written. *)
Definition status_line (version platform : string) (e : Z) : string :=
  ("Orchard " ++ version ++ " on " ++ platform ++ ": edges="
     ++ print_int e ++ newline)%string.

(** [main] returns the text it prints and its exit status. *)
Definition main : M (string * Z) :=
  graph_init ;;
  graph_add_node 1 ;;
  graph_add_node 2 ;;
  plugin_answer ;;
  v <- orchard_version ;;
  p <- current_platform ;;
  e <- graph_edge_count ;;
  ret (status_line v p e, 0).

End Main.

(** ** util/number.h *)

Definition clamp_int (v lo hi : Z) : Z :=
  if v <? lo then lo
  else if v >? hi then hi
  else v.

(** ** Shapes of call sequences *)

Definition is_init (c : call) : bool :=
  match c with CInit => true | _ => false end.

Definition is_add_node (c : call) : bool :=
  match c with CAddNode _ => true | _ => false end.

Definition is_edge_count (c : call) : bool :=
  match c with CEdgeCount => true | _ => false end.

(** The counters a run of calls ends with, or its error. *)
Definition run_state (cs : list call) (g : graph) : result graph :=
  match trace cs g with
  | Ok tr => Ok (final g tr)
  | Err e => Err e
  end.

(** What the [i]-th insertion after a reset returns and leaves. *)
Definition nth_insertion (i : nat) : value * graph :=
  (VInt (Z.of_nat i), mkGraph (Z.of_nat i) (Z.of_nat i - 1)).

(** * Properties *)

(** ** Range of [int] *)

Lemma in_range_spec z : in_range z = true <-> INT_MIN <= z <= INT_MAX.
Proof. unfold in_range. rewrite andb_true_iff, !Z.leb_le. tauto. Qed.

Lemma in_range_false z : in_range z = false <-> z < INT_MIN \/ INT_MAX < z.
Proof. unfold in_range. rewrite andb_false_iff, !Z.leb_gt. tauto. Qed.

Lemma INT_MAX_eq : INT_MAX = 2147483647.
Proof. reflexivity. Qed.

Lemma INT_MIN_eq : INT_MIN = -2147483648.
Proof. reflexivity. Qed.

Ltac range :=
  repeat match goal with
         | H : wf _ |- _ => destruct H
         | H : in_range _ = true |- _ => apply in_range_spec in H
         | H : in_range _ = false |- _ => apply in_range_false in H
         | |- in_range _ = true => apply in_range_spec
         | |- in_range _ = false => apply in_range_false
         end;
  rewrite ?INT_MAX_eq, ?INT_MIN_eq in *.

(** ** Closed forms of the three functions *)

Lemma graph_init_eq g : graph_init g = Ok (tt, mkGraph 0 0).
Proof. reflexivity. Qed.

Lemma graph_edge_count_eq g : graph_edge_count g = Ok (edges g, g).
Proof. reflexivity. Qed.

Lemma graph_add_node_eq id g :
  graph_add_node id g =
  if in_range (nodes g + 1) then
    if nodes g + 1 >? 1 then
      if in_range (edges g + 1)
      then Ok (nodes g + 1, mkGraph (nodes g + 1) (edges g + 1))
      else Err CounterOverflow
    else Ok (nodes g + 1, mkGraph (nodes g + 1) (edges g))
  else Err CounterOverflow.
Proof.
  unfold graph_add_node, bind, get_nodes, add, set_nodes, get_edges, set_edges, ret.
  destruct (in_range (nodes g + 1)); [|reflexivity].
  cbn [nodes edges].
  destruct (nodes g + 1 >? 1); [|reflexivity].
  cbn [nodes edges].
  destruct (in_range (edges g + 1)); reflexivity.
Qed.

Lemma exec_init g : exec CInit g = Ok (VVoid, initial).
Proof. reflexivity. Qed.

Lemma exec_edge_count g : exec CEdgeCount g = Ok (VInt (edges g), g).
Proof. reflexivity. Qed.

Lemma exec_add_node id g :
  exec (CAddNode id) g =
  match graph_add_node id g with
  | Ok (r, g') => Ok (VInt r, g')
  | Err e => Err e
  end.
Proof.
  unfold exec, bind, ret. destruct (graph_add_node id g) as [[r g']|e]; reflexivity.
Qed.

(** ** One insertion *)

Lemma add_node_ok id g :
  wf g -> no_overflow g ->
  graph_add_node id g =
  Ok (nodes g + 1,
      mkGraph (nodes g + 1) (if nodes g + 1 >? 1 then edges g + 1 else edges g)).
Proof.
  intros Hwf [Hn He]. rewrite graph_add_node_eq.
  replace (in_range (nodes g + 1)) with true by (symmetry; range; lia).
  destruct (Z.gtb_spec (nodes g + 1) 1) as [Hgt|Hle]; [|reflexivity].
  replace (in_range (edges g + 1)) with true; [reflexivity|].
  symmetry. specialize (He Hgt). range. lia.
Qed.

Lemma add_node_overflow id g :
  wf g -> ~ no_overflow g -> graph_add_node id g = Err CounterOverflow.
Proof.
  intros Hwf Hno. rewrite graph_add_node_eq.
  destruct (in_range (nodes g + 1)) eqn:Hn; [|reflexivity].
  destruct (Z.gtb_spec (nodes g + 1) 1) as [Hgt|Hle].
  - destruct (in_range (edges g + 1)) eqn:He; [|reflexivity].
    exfalso. apply Hno. unfold no_overflow. range. lia.
  - exfalso. apply Hno. unfold no_overflow. range. lia.
Qed.

Lemma add_node_inversion id g r g' :
  graph_add_node id g = Ok (r, g') ->
  r = nodes g + 1 /\
  g' = mkGraph (nodes g + 1) (if nodes g + 1 >? 1 then edges g + 1 else edges g) /\
  in_range (nodes g + 1) = true /\
  (nodes g + 1 > 1 -> in_range (edges g + 1) = true).
Proof.
  rewrite graph_add_node_eq.
  destruct (in_range (nodes g + 1)) eqn:Hn; [|discriminate].
  destruct (Z.gtb_spec (nodes g + 1) 1) as [Hgt|Hle].
  - destruct (in_range (edges g + 1)) eqn:He; [|discriminate].
    intros [= <- <-]. auto.
  - intros [= <- <-]. repeat split; auto; lia.
Qed.

Lemma add_node_wf id g r g' :
  wf g -> graph_add_node id g = Ok (r, g') -> wf g'.
Proof.
  intros Hwf H. apply add_node_inversion in H as (_ & -> & Hn & He).
  split; cbn [nodes edges]; [exact Hn|].
  destruct (Z.gtb_spec (nodes g + 1) 1) as [Hgt|Hle]; [apply He; lia|apply Hwf].
Qed.

(** C2: from any state (n, e) in which the increments do not overflow, one
    [graph_add_node] call, whatever its [id], leaves (n + 1, e') with
    e' = e + 1 when n + 1 > 1 and e' = e otherwise; so the first node after a
    reset adds no edge and every later node adds exactly one. *)
Theorem add_node_transition (id n e : Z)
  (Hwf : wf (mkGraph n e)) (Hno : no_overflow (mkGraph n e)) :
  exists g',
    graph_add_node id (mkGraph n e) = Ok (n + 1, g') /\
    nodes g' = n + 1 /\
    edges g' = (if n + 1 >? 1 then e + 1 else e) /\
    (n = 0 -> edges g' = e) /\
    (1 <= n -> edges g' = e + 1).
Proof.
  eexists. split; [apply (add_node_ok id (mkGraph n e) Hwf Hno)|].
  cbn [nodes edges]. repeat split.
  - intros ->. reflexivity.
  - intros Hn. destruct (Z.gtb_spec (n + 1) 1); [reflexivity|lia].
Qed.

Lemma add_node_transition_witness :
  exists g',
    graph_add_node 7 (mkGraph 1 0) = Ok (1 + 1, g') /\
    nodes g' = 1 + 1 /\
    edges g' = (if 1 + 1 >? 1 then 0 + 1 else 0) /\
    (1 = 0 -> edges g' = 0) /\
    (1 <= 1 -> edges g' = 0 + 1).
Proof.
  apply (add_node_transition 7 1 0).
  - split; reflexivity.
  - split; [reflexivity|intros _; reflexivity].
Defined.

(** C3: in a state with [nodes = N], [N >= 0], where the increments do not
    overflow, [graph_add_node] returns exactly [N + 1], which is the value of
    [nodes] after the call. *)
Theorem add_node_returns (id N : Z) (g : graph)
  (Hwf : wf g) (Hno : no_overflow g) (HN : nodes g = N) (Hpos : 0 <= N) :
  exists g', graph_add_node id g = Ok (N + 1, g') /\ nodes g' = N + 1.
Proof.
  subst N. eexists. split; [apply add_node_ok; assumption|reflexivity].
Qed.

Lemma add_node_returns_witness :
  exists g', graph_add_node (-5) (mkGraph 3 2) = Ok (3 + 1, g') /\ nodes g' = 3 + 1.
Proof.
  apply (add_node_returns (-5) 3 (mkGraph 3 2)).
  - split; reflexivity.
  - split; [reflexivity|intros _; reflexivity].
  - reflexivity.
  - discriminate.
Defined.

(** ** The invariant *)

Lemma inv_initial : inv initial.
Proof. reflexivity. Qed.

Lemma inv_add_node id g r g' :
  inv g -> graph_add_node id g = Ok (r, g') -> inv g'.
Proof.
  unfold inv. intros Hinv H.
  apply add_node_inversion in H as (_ & -> & _ & _). cbn [nodes edges].
  destruct (Z.gtb_spec (nodes g + 1) 1); lia.
Qed.

Lemma inv_exec c g v g' : inv g -> exec c g = Ok (v, g') -> inv g'.
Proof.
  intros Hinv. destruct c as [|id|].
  - rewrite exec_init. intros [= _ <-]. exact inv_initial.
  - rewrite exec_add_node.
    destruct (graph_add_node id g) as [[r g1]|e] eqn:H; [|discriminate].
    intros [= _ <-]. exact (inv_add_node id g r g1 Hinv H).
  - rewrite exec_edge_count. intros [= _ <-]. exact Hinv.
Qed.

Lemma inv_trace cs : forall g tr,
  inv g -> trace cs g = Ok tr -> Forall (fun vg => inv (snd vg)) tr.
Proof.
  induction cs as [|c cs IH]; intros g tr Hinv; cbn [trace].
  - intros [= <-]. constructor.
  - destruct (exec c g) as [[v g1]|e] eqn:Hc; [|discriminate].
    destruct (trace cs g1) as [tr1|e] eqn:Ht; [|discriminate].
    intros [= <-].
    assert (Hinv1 : inv g1) by exact (inv_exec c g v g1 Hinv Hc).
    constructor; [exact Hinv1|exact (IH g1 tr1 Hinv1 Ht)].
Qed.

(** A run of insertions that keeps both counters below [INT_MAX] does not
    overflow. *)
Lemma trace_add_nodes_total ids : forall g,
  wf g ->
  nodes g + Z.of_nat (length ids) <= INT_MAX ->
  edges g + Z.of_nat (length ids) <= INT_MAX ->
  exists tr, trace (map CAddNode ids) g = Ok tr.
Proof.
  induction ids as [|id ids IH]; intros g Hwf Hn He.
  - exists []. reflexivity.
  - cbn [length] in Hn, He. rewrite Nat2Z.inj_succ in Hn, He.
    assert (Hno : no_overflow g) by (unfold no_overflow; lia).
    pose proof (add_node_ok id g Hwf Hno) as Hadd.
    cbn [map trace]. rewrite exec_add_node, Hadd.
    destruct (IH (mkGraph (nodes g + 1)
                    (if nodes g + 1 >? 1 then edges g + 1 else edges g)))
      as [tr Htr].
    + exact (add_node_wf id g _ _ Hwf Hadd).
    + cbn [nodes]. lia.
    + cbn [edges]. destruct (nodes g + 1 >? 1); lia.
    + rewrite Htr. eexists. reflexivity.
Qed.

Lemma wf_initial : wf initial.
Proof. split; reflexivity. Qed.

(** C1: after a reset, any sequence of [graph_add_node] calls short enough
    not to overflow runs to its end and [edges = max (nodes - 1) 0] holds
    after every call; [graph_init], [graph_add_node] and [graph_edge_count]
    each preserve this predicate, so it holds in every reachable state. *)
Theorem invariant_all_states :
  (forall g0 ids,
      Z.of_nat (length ids) <= INT_MAX ->
      exists tr, trace (CInit :: map CAddNode ids) g0 = Ok tr /\
                 Forall (fun vg => inv (snd vg)) tr) /\
  (forall c g v g', inv g -> exec c g = Ok (v, g') -> inv g') /\
  (forall g, reachable g -> inv g).
Proof.
  split; [|split].
  - intros g0 ids Hlen.
    destruct (trace_add_nodes_total ids initial wf_initial) as [tr Htr];
      [exact Hlen|exact Hlen|].
    exists ((VVoid, initial) :: tr). cbn [trace]. rewrite exec_init, Htr.
    split; [reflexivity|].
    constructor; [exact inv_initial|exact (inv_trace _ _ _ inv_initial Htr)].
  - exact inv_exec.
  - intros g Hr. induction Hr as [|c g v g' _ IH Hc].
    + exact inv_initial.
    + exact (inv_exec c g v g' IH Hc).
Qed.

Lemma invariant_all_states_witness :
  exists tr, trace (CInit :: map CAddNode [1; 2; 2; 99]) (mkGraph 5 9) = Ok tr /\
             Forall (fun vg => inv (snd vg)) tr.
Proof.
  apply (proj1 invariant_all_states (mkGraph 5 9) [1; 2; 2; 99]).
  vm_compute. discriminate.
Defined.

(** ** Sequencing *)

Lemma last_nonempty {A} (l : list A) : forall b d d',
  last (b :: l) d = last (b :: l) d'.
Proof.
  induction l as [|c l IH]; intros b d d'; [reflexivity|].
  change (last (b :: c :: l) d) with (last (c :: l) d).
  change (last (b :: c :: l) d') with (last (c :: l) d').
  apply IH.
Qed.

Lemma last_cons {A} (l : list A) a d : last (a :: l) d = last l a.
Proof.
  destruct l as [|b l]; [reflexivity|].
  change (last (a :: b :: l) d) with (last (b :: l) d).
  apply last_nonempty.
Qed.

Lemma last_app_default {A} (l1 l2 : list A) : forall d,
  last (l1 ++ l2) d = last l2 (last l1 d).
Proof.
  induction l1 as [|a l1 IH]; intros d; [reflexivity|].
  cbn [app]. rewrite !last_cons. apply IH.
Qed.

Lemma final_cons g v g' tr : final g ((v, g') :: tr) = final g' tr.
Proof.
  unfold final. cbn [map snd]. apply last_cons.
Qed.

Lemma trace_app cs1 cs2 : forall g,
  trace (cs1 ++ cs2) g =
  match trace cs1 g with
  | Err e => Err e
  | Ok t1 =>
      match trace cs2 (final g t1) with
      | Err e => Err e
      | Ok t2 => Ok (t1 ++ t2)
      end
  end.
Proof.
  induction cs1 as [|c cs1 IH]; intros g.
  - cbn [app trace]. unfold final. cbn [map last].
    destruct (trace cs2 g); reflexivity.
  - cbn [app trace]. destruct (exec c g) as [[v g1]|e]; [|reflexivity].
    rewrite IH. destruct (trace cs1 g1) as [t1|e]; [|reflexivity].
    rewrite final_cons. destruct (trace cs2 (final g1 t1)); reflexivity.
Qed.

Lemma final_app g t1 t2 : final g (t1 ++ t2) = final (final g t1) t2.
Proof. unfold final. rewrite map_app. apply last_app_default. Qed.

(** ** Reset *)

Lemma trace_init_then cs g tr :
  trace (cs ++ [CInit]) g = Ok tr -> final g tr = initial.
Proof.
  rewrite trace_app. destruct (trace cs g) as [t1|e]; [|discriminate].
  cbn [trace]. rewrite exec_init. intros [= <-].
  rewrite final_app. reflexivity.
Qed.

Lemma trace_repeat_init k : forall g,
  trace (repeat CInit k) g = Ok (repeat (VVoid, initial) k).
Proof.
  induction k as [|k IH]; intros g; [reflexivity|].
  cbn [repeat trace]. rewrite exec_init, IH. reflexivity.
Qed.

Lemma final_repeat k g g' v : final g (repeat (v, g') (S k)) = g'.
Proof.
  induction k as [|k IH]; [reflexivity|].
  change (repeat (v, g') (S (S k))) with ((v, g') :: repeat (v, g') (S k)).
  rewrite final_cons.
  change (repeat (v, g') (S k)) with ((v, g') :: repeat (v, g') k) in *.
  rewrite final_cons in IH |- *. exact IH.
Qed.

(** C4: [graph_init] leaves [nodes = 0] and [edges = 0] from every state; a
    second reset changes nothing, any number of resets in a row ends in that
    state, and so does a reset after any sequence of insertions, from whatever
    state the sequence started. *)
Theorem reset_idempotent_absorbing (g : graph) :
  graph_init g = Ok (tt, mkGraph 0 0) /\
  (graph_init ;; graph_init) g = graph_init g /\
  (forall k, exists tr, trace (repeat CInit (S k)) g = Ok tr /\
                        final g tr = mkGraph 0 0) /\
  (forall ids tr, trace (map CAddNode ids ++ [CInit]) g = Ok tr ->
                  final g tr = mkGraph 0 0 /\
                  graph_init (final g tr) = graph_init initial).
Proof.
  split; [reflexivity|]. split; [reflexivity|]. split.
  - intros k. eexists. split; [apply trace_repeat_init|apply final_repeat].
  - intros ids tr Htr. split; [exact (trace_init_then _ _ _ Htr)|reflexivity].
Qed.

Lemma reset_idempotent_absorbing_witness :
  final (mkGraph 4 3)
    [(VInt 5, mkGraph 5 4); (VInt 6, mkGraph 6 5); (VVoid, mkGraph 0 0)]
  = mkGraph 0 0 /\
  graph_init
    (final (mkGraph 4 3)
       [(VInt 5, mkGraph 5 4); (VInt 6, mkGraph 6 5); (VVoid, mkGraph 0 0)])
  = graph_init initial.
Proof.
  apply (proj2 (proj2 (proj2 (reset_idempotent_absorbing (mkGraph 4 3))))
           [8; 8]).
  reflexivity.
Defined.

(** ** The [id] argument *)

Lemma exec_erase_id c g : exec (erase_id c) g = exec c g.
Proof.
  destruct c as [|id|]; [reflexivity| |reflexivity].
  cbn [erase_id]. rewrite !exec_add_node, !graph_add_node_eq. reflexivity.
Qed.

Lemma trace_erase_id cs : forall g, trace (map erase_id cs) g = trace cs g.
Proof.
  induction cs as [|c cs IH]; intros g; [reflexivity|].
  cbn [map trace]. rewrite exec_erase_id.
  destruct (exec c g) as [[v g1]|e]; [|reflexivity].
  rewrite IH. reflexivity.
Qed.

Lemma erase_add_nodes ids :
  map erase_id (map CAddNode ids) = repeat (CAddNode 0) (length ids).
Proof.
  induction ids as [|id ids IH]; [reflexivity|].
  cbn [map length repeat erase_id]. rewrite IH. reflexivity.
Qed.

Lemma trace_add_nodes_length ids1 ids2 g :
  length ids1 = length ids2 ->
  trace (map CAddNode ids1) g = trace (map CAddNode ids2) g.
Proof.
  intros Hlen.
  rewrite <- (trace_erase_id (map CAddNode ids1)).
  rewrite <- (trace_erase_id (map CAddNode ids2)).
  rewrite !erase_add_nodes, Hlen. reflexivity.
Qed.

(** C5: two runs of [graph_add_node] calls of the same length, from the same
    state, that differ only in the [id]s passed, return the same sequence of
    values, and a [graph_edge_count] call at the end returns the same value
    in both (and if one run overflows, so does the other, at the same
    call). *)
Theorem id_noninterference (ids1 ids2 : list Z) (g : graph)
  (Hlen : length ids1 = length ids2) :
  run (map CAddNode ids1) g = run (map CAddNode ids2) g /\
  run (map CAddNode ids1 ++ [CEdgeCount]) g =
  run (map CAddNode ids2 ++ [CEdgeCount]) g.
Proof.
  unfold run. rewrite !trace_app.
  rewrite (trace_add_nodes_length ids1 ids2 g Hlen). split; reflexivity.
Qed.

Lemma id_noninterference_witness :
  run (map CAddNode [1; 2; 2; 99]) initial =
  run (map CAddNode [-5; -5; 0; 0]) initial /\
  run (map CAddNode [1; 2; 2; 99] ++ [CEdgeCount]) initial =
  run (map CAddNode [-5; -5; 0; 0] ++ [CEdgeCount]) initial.
Proof.
  apply (id_noninterference [1; 2; 2; 99] [-5; -5; 0; 0] initial).
  reflexivity.
Defined.

(** ** Monotonicity *)

Lemma add_node_nondecreasing id g r g' :
  graph_add_node id g = Ok (r, g') ->
  nodes g <= nodes g' /\ edges g <= edges g'.
Proof.
  intros H. apply add_node_inversion in H as (_ & -> & _ & _).
  cbn [nodes edges]. destruct (nodes g + 1 >? 1); lia.
Qed.

Lemma trace_add_nodes_nondecreasing ids : forall g tr,
  trace (map CAddNode ids) g = Ok tr -> nondecreasing g (map snd tr).
Proof.
  induction ids as [|id ids IH]; intros g tr; cbn [map trace].
  - intros [= <-]. exact I.
  - rewrite exec_add_node.
    destruct (graph_add_node id g) as [[r g1]|e] eqn:Hadd; [|discriminate].
    destruct (trace (map CAddNode ids) g1) as [tr1|e] eqn:Htr; [|discriminate].
    intros [= <-]. cbn [map snd nondecreasing].
    destruct (add_node_nondecreasing id g r g1 Hadd) as [Hn He].
    repeat split; [exact Hn|exact He|exact (IH g1 tr1 Htr)].
Qed.

(** C6: along any sequence of [graph_add_node] calls with no reset in between
    and no overflow, [nodes] never decreases from one call to the next, and
    neither does the value [graph_edge_count] reads; such a sequence does run
    to its end whenever both counters stay within [INT_MAX]. *)
Theorem counters_monotone (ids : list Z) (g : graph) :
  (forall tr, trace (map CAddNode ids) g = Ok tr ->
              nondecreasing g (map snd tr)) /\
  (wf g ->
   nodes g + Z.of_nat (length ids) <= INT_MAX ->
   edges g + Z.of_nat (length ids) <= INT_MAX ->
   exists tr, trace (map CAddNode ids) g = Ok tr /\
              nondecreasing g (map snd tr)).
Proof.
  split.
  - exact (trace_add_nodes_nondecreasing ids g).
  - intros Hwf Hn He.
    destruct (trace_add_nodes_total ids g Hwf Hn He) as [tr Htr].
    exists tr. split; [exact Htr|exact (trace_add_nodes_nondecreasing ids g tr Htr)].
Qed.

Lemma counters_monotone_witness :
  exists tr, trace (map CAddNode [3; 3; -1]) (mkGraph 0 0) = Ok tr /\
             nondecreasing (mkGraph 0 0) (map snd tr).
Proof.
  apply (proj2 (counters_monotone [3; 3; -1] (mkGraph 0 0))).
  - split; reflexivity.
  - vm_compute. discriminate.
  - vm_compute. discriminate.
Defined.

(** ** Reading the edge count *)

Lemma trace_repeat_edge_count k : forall g,
  trace (repeat CEdgeCount k) g = Ok (repeat (VInt (edges g), g) k).
Proof.
  induction k as [|k IH]; intros g; [reflexivity|].
  cbn [repeat trace]. rewrite exec_edge_count, IH. reflexivity.
Qed.

(** C7: [graph_edge_count] returns the current value of [edges], leaves both
    counters as they were and has no error outcome; any number of calls in a
    row each return that same value and leave the state untouched. *)
Theorem edge_count_pure_read (g : graph) :
  graph_edge_count g = Ok (edges g, g) /\
  (forall k, trace (repeat CEdgeCount k) g = Ok (repeat (VInt (edges g), g) k)).
Proof.
  split; [reflexivity|]. intros k. apply trace_repeat_edge_count.
Qed.

(** ** Totality *)

Lemma no_overflow_dec g : no_overflow g \/ ~ no_overflow g.
Proof. unfold no_overflow. lia. Qed.

Lemma exec_error c g e :
  wf g -> exec c g = Err e ->
  e = CounterOverflow /\ exists id, c = CAddNode id /\ ~ no_overflow g.
Proof.
  intros Hwf H. split; [destruct e; reflexivity|].
  destruct c as [|id|].
  - rewrite exec_init in H. discriminate.
  - exists id. split; [reflexivity|]. intros Hno.
    rewrite exec_add_node, (add_node_ok id g Hwf Hno) in H. discriminate.
  - rewrite exec_edge_count in H. discriminate.
Qed.

(** C8: in every state (both counters being [int]s) [graph_init] and
    [graph_edge_count] succeed, and [graph_add_node] succeeds for every [id]
    unless one of its increments would leave the range of [int]; that
    overflow is the only error outcome any of the three has, and each
    successful call leaves a state of [int] counters again. *)
Theorem operations_total (g : graph) (Hwf : wf g) :
  (exists g', graph_init g = Ok (tt, g') /\ wf g') /\
  (exists e, graph_edge_count g = Ok (e, g)) /\
  (forall id, no_overflow g ->
              exists r g', graph_add_node id g = Ok (r, g') /\ wf g') /\
  (forall id, ~ no_overflow g -> graph_add_node id g = Err CounterOverflow) /\
  (forall c e, exec c g = Err e ->
               e = CounterOverflow /\
               exists id, c = CAddNode id /\ ~ no_overflow g).
Proof.
  split; [|split; [|split; [|split]]].
  - exists initial. split; [reflexivity|exact wf_initial].
  - exists (edges g). reflexivity.
  - intros id Hno. pose proof (add_node_ok id g Hwf Hno) as Hadd.
    eexists. eexists. split; [exact Hadd|exact (add_node_wf id g _ _ Hwf Hadd)].
  - intros id Hno. exact (add_node_overflow id g Hwf Hno).
  - intros c e. exact (exec_error c g e Hwf).
Qed.

Lemma operations_total_witness :
  graph_add_node 1 (mkGraph 2147483647 2147483646) = Err CounterOverflow.
Proof.
  assert (Hwf : wf (mkGraph 2147483647 2147483646)) by (split; reflexivity).
  apply (proj1 (proj2 (proj2 (proj2 (operations_total _ Hwf)))) 1).
  intros [Hn _]. vm_compute in Hn. discriminate Hn.
Defined.

(** ** Start of the program *)

(** C9: the statically initialised counters are [nodes = 0], [edges = 0],
    the very state [graph_init] leaves; so a caller that starts with a reset,
    from any state, sees after it exactly what a caller that never resets
    sees from program start. *)
Theorem static_initial_is_reset :
  nodes initial = 0 /\ edges initial = 0 /\
  (forall g, graph_init g = Ok (tt, initial)) /\
  (forall cs g,
      trace (CInit :: cs) g =
      match trace cs initial with
      | Ok tr => Ok ((VVoid, initial) :: tr)
      | Err e => Err e
      end) /\
  (forall cs g,
      run (CInit :: cs) g =
      match run cs initial with
      | Ok vs => Ok (VVoid :: vs)
      | Err e => Err e
      end).
Proof.
  repeat split.
  intros cs g. unfold run. cbn [trace]. rewrite exec_init.
  destruct (trace cs initial); reflexivity.
Qed.

(** ** main *)

(** C10: [main] does [graph_init(); graph_add_node(1); graph_add_node(2)],
    after which [graph_edge_count()] returns 1, so the line it prints ends in
    [edges=1]; it returns 0. *)
Theorem main_reports_one_edge (version platform : string) (answer : Z)
  (g : graph) :
  main version platform answer g =
    Ok ((status_line version platform 1, 0), mkGraph 2 1) /\
  status_line version platform 1 =
    ("Orchard " ++ version ++ " on " ++ platform ++ ": edges=1" ++ newline)%string /\
  trace [CInit; CAddNode 1; CAddNode 2; CEdgeCount] g =
    Ok [(VVoid, mkGraph 0 0); (VInt 1, mkGraph 1 0); (VInt 2, mkGraph 2 1);
        (VInt 1, mkGraph 2 1)].
Proof.
  repeat split.
Qed.

(** ** The scenarios of the spec, run on the model *)

Example scenario_reset :
  run [CInit; CEdgeCount] (mkGraph 7 6) = Ok [VVoid; VInt 0].
Proof. reflexivity. Qed.

Example scenario_one_node :
  run [CInit; CAddNode 1; CEdgeCount] initial = Ok [VVoid; VInt 1; VInt 0].
Proof. reflexivity. Qed.

Example scenario_four_nodes :
  run [CInit; CAddNode 1; CAddNode 2; CAddNode 2; CAddNode 99; CEdgeCount]
      initial
  = Ok [VVoid; VInt 1; VInt 2; VInt 3; VInt 4; VInt 3].
Proof. reflexivity. Qed.

Example scenario_negative_duplicates :
  run [CInit; CAddNode (-5); CAddNode (-5); CEdgeCount] initial
  = Ok [VVoid; VInt 1; VInt 2; VInt 1].
Proof. reflexivity. Qed.

Example scenario_overflow :
  run [CAddNode 0] (mkGraph INT_MAX (INT_MAX - 1)) = Err CounterOverflow.
Proof. reflexivity. Qed.

Example print_int_examples :
  print_int 0 = "0"%string /\ print_int 1 = "1"%string /\
  print_int (-5) = "-5"%string /\ print_int 2147483647 = "2147483647"%string.
Proof. repeat split. Qed.

(** * Further properties *)

(** ** clamp_int *)

(** X1: with ordered bounds the result of [clamp_int] lies between them. *)
Theorem clamp_int_in_bounds (v lo hi : Z) (Hord : lo <= hi) :
  lo <= clamp_int v lo hi <= hi.
Proof.
  unfold clamp_int.
  destruct (Z.ltb_spec v lo); [lia|].
  destruct (Z.gtb_spec v hi); lia.
Qed.

Lemma clamp_int_in_bounds_witness :
  -3 <= clamp_int 40 (-3) 12 <= 12.
Proof. apply (clamp_int_in_bounds 40 (-3) 12). discriminate. Defined.

(** X2: [clamp_int] returns its first argument unchanged exactly when that
    argument already lies between the bounds, whatever the bounds are. *)
Theorem clamp_int_fixes_iff (v lo hi : Z) :
  clamp_int v lo hi = v <-> lo <= v <= hi.
Proof.
  unfold clamp_int.
  destruct (Z.ltb_spec v lo); [lia|].
  destruct (Z.gtb_spec v hi); lia.
Qed.

(** X3: with ordered bounds, clamping twice is clamping once. *)
Theorem clamp_int_idempotent (v lo hi : Z) (Hord : lo <= hi) :
  clamp_int (clamp_int v lo hi) lo hi = clamp_int v lo hi.
Proof.
  unfold clamp_int.
  destruct (Z.ltb_spec v lo) as [Hlt|Hge].
  - rewrite Z.ltb_irrefl. destruct (Z.gtb_spec lo hi); [lia|reflexivity].
  - destruct (Z.gtb_spec v hi) as [Hgt|Hle].
    + destruct (Z.ltb_spec hi lo); [lia|].
      destruct (Z.gtb_spec hi hi); [lia|reflexivity].
    + destruct (Z.ltb_spec v lo); [lia|].
      destruct (Z.gtb_spec v hi); [lia|reflexivity].
Qed.

Lemma clamp_int_idempotent_witness :
  clamp_int (clamp_int 99 0 10) 0 10 = clamp_int 99 0 10.
Proof. apply (clamp_int_idempotent 99 0 10). discriminate. Defined.

(** X4: with ordered bounds, [clamp_int] is monotone in the clamped value. *)
Theorem clamp_int_monotone (v w lo hi : Z) (Hord : lo <= hi) (Hvw : v <= w) :
  clamp_int v lo hi <= clamp_int w lo hi.
Proof.
  unfold clamp_int.
  destruct (Z.ltb_spec v lo); destruct (Z.ltb_spec w lo);
    destruct (Z.gtb_spec v hi); destruct (Z.gtb_spec w hi); lia.
Qed.

Lemma clamp_int_monotone_witness :
  clamp_int (-7) 0 10 <= clamp_int 4 0 10.
Proof. apply (clamp_int_monotone (-7) 4 0 10); discriminate. Defined.

(** X5: with inverted bounds ([hi < lo]) the lower bound is tested first:
    the result is [lo] for a value below [lo] and [hi] for every other value,
    so it is never the value itself and the function is no longer monotone
    nor idempotent. *)
Theorem clamp_int_inverted_bounds (v lo hi : Z) (Hinv : hi < lo) :
  clamp_int v lo hi = (if v <? lo then lo else hi) /\
  clamp_int v lo hi <> v /\
  clamp_int (clamp_int (lo - 1) lo hi) lo hi <> clamp_int (lo - 1) lo hi /\
  clamp_int lo lo hi < clamp_int (lo - 1) lo hi.
Proof.
  unfold clamp_int.
  destruct (Z.ltb_spec v lo); destruct (Z.gtb_spec v hi);
    destruct (Z.ltb_spec (lo - 1) lo); destruct (Z.ltb_spec lo lo);
    destruct (Z.gtb_spec lo hi); try lia.
Qed.

Lemma clamp_int_inverted_bounds_witness :
  clamp_int 4 5 3 = (if 4 <? 5 then 5 else 3) /\
  clamp_int 4 5 3 <> 4 /\
  clamp_int (clamp_int (5 - 1) 5 3) 5 3 <> clamp_int (5 - 1) 5 3 /\
  clamp_int 5 5 3 < clamp_int (5 - 1) 5 3.
Proof. apply (clamp_int_inverted_bounds 4 5 3). reflexivity. Defined.

(** X6: with ordered bounds [clamp_int v lo hi] is [max lo (min v hi)]; it
    always returns one of its three arguments, so it stays within [int]
    when they are. *)
Theorem clamp_int_min_max (v lo hi : Z) :
  (lo <= hi -> clamp_int v lo hi = Z.max lo (Z.min v hi)) /\
  (clamp_int v lo hi = v \/ clamp_int v lo hi = lo \/ clamp_int v lo hi = hi) /\
  (in_range v = true -> in_range lo = true -> in_range hi = true ->
   in_range (clamp_int v lo hi) = true).
Proof.
  unfold clamp_int.
  destruct (Z.ltb_spec v lo); destruct (Z.gtb_spec v hi);
    (split; [lia|split; [tauto|tauto]]).
Qed.

Lemma clamp_int_min_max_witness :
  clamp_int 15 0 10 = Z.max 0 (Z.min 15 10).
Proof. apply (proj1 (clamp_int_min_max 15 0 10)). discriminate. Defined.

(** ** How many insertions fit *)

Lemma trace_add_nodes_bound ids : forall g tr,
  nodes g <= INT_MAX ->
  trace (map CAddNode ids) g = Ok tr ->
  nodes g + Z.of_nat (length ids) <= INT_MAX.
Proof.
  induction ids as [|id ids IH]; intros g tr Hg; cbn [map trace length].
  - intros _. lia.
  - rewrite exec_add_node.
    destruct (graph_add_node id g) as [[r g1]|e] eqn:Hadd; [|discriminate].
    destruct (trace (map CAddNode ids) g1) as [tr1|e] eqn:Htr; [|discriminate].
    intros _. apply add_node_inversion in Hadd as (_ & -> & Hn & _).
    apply in_range_spec in Hn.
    apply IH in Htr; cbn [nodes] in *; [|lia].
    rewrite Nat2Z.inj_succ. lia.
Qed.

(** X7: a run of [graph_add_node] calls after a [graph_init] goes through
    without overflow exactly when it has at most [INT_MAX] calls, whatever the
    state before the reset and whatever the [id]s. *)
Theorem insertions_capacity (g : graph) (ids : list Z) :
  (exists tr, trace (CInit :: map CAddNode ids) g = Ok tr) <->
  Z.of_nat (length ids) <= INT_MAX.
Proof.
  cbn [trace]. rewrite exec_init. split.
  - intros [tr Htr].
    destruct (trace (map CAddNode ids) initial) as [tr1|e] eqn:H1; [|discriminate].
    apply (trace_add_nodes_bound ids initial tr1); [discriminate|exact H1].
  - intros Hlen.
    destruct (trace_add_nodes_total ids initial wf_initial Hlen Hlen) as [tr Htr].
    rewrite Htr. eexists. reflexivity.
Qed.

(** ** The trace of a run of insertions *)

Lemma trace_add_nodes_closed ids : forall m g,
  wf g -> inv g -> nodes g = Z.of_nat m ->
  Z.of_nat m + Z.of_nat (length ids) <= INT_MAX ->
  trace (map CAddNode ids) g = Ok (map nth_insertion (seq (S m) (length ids))).
Proof.
  induction ids as [|id ids IH]; intros m g Hwf Hinv Hm Hlen; [reflexivity|].
  cbn [length] in Hlen. rewrite Nat2Z.inj_succ in Hlen.
  assert (Hno : no_overflow g) by (unfold no_overflow, inv in *; lia).
  pose proof (add_node_ok id g Hwf Hno) as Hadd.
  assert (Hg1 : mkGraph (nodes g + 1)
                  (if nodes g + 1 >? 1 then edges g + 1 else edges g) =
                mkGraph (Z.of_nat (S m)) (Z.of_nat (S m) - 1)).
  { unfold inv in Hinv. rewrite Nat2Z.inj_succ.
    destruct (Z.gtb_spec (nodes g + 1) 1); f_equal; lia. }
  cbn [map trace length seq]. rewrite exec_add_node, Hadd, Hg1.
  rewrite Hg1 in Hadd. rewrite Hm in Hadd.
  rewrite (IH (S m) (mkGraph (Z.of_nat (S m)) (Z.of_nat (S m) - 1))).
  - unfold nth_insertion at 2. rewrite Hm, Nat2Z.inj_succ. reflexivity.
  - exact (add_node_wf id g _ _ Hwf Hadd).
  - unfold inv. cbn [nodes edges]. lia.
  - reflexivity.
  - rewrite Nat2Z.inj_succ. lia.
Qed.

(** X8: after a [graph_init], the [i]-th of at most [INT_MAX]
    [graph_add_node] calls returns [i] and leaves [nodes = i],
    [edges = i - 1], for i = 1, 2, ...; the [id]s play no part. *)
Theorem insertions_trace (g : graph) (ids : list Z)
  (Hlen : Z.of_nat (length ids) <= INT_MAX) :
  trace (CInit :: map CAddNode ids) g =
  Ok ((VVoid, mkGraph 0 0) :: map nth_insertion (seq 1 (length ids))).
Proof.
  cbn [trace]. rewrite exec_init.
  rewrite (trace_add_nodes_closed ids 0 initial wf_initial inv_initial);
    [reflexivity|reflexivity|exact Hlen].
Qed.

Lemma insertions_trace_witness :
  trace (CInit :: map CAddNode [10; 10; -3]) (mkGraph 8 7) =
  Ok ((VVoid, mkGraph 0 0) :: map nth_insertion (seq 1 (length [10; 10; -3]))).
Proof. apply (insertions_trace (mkGraph 8 7) [10; 10; -3]). discriminate. Defined.

(** ** The reachable states *)

Lemma exec_wf c g v g' : wf g -> exec c g = Ok (v, g') -> wf g'.
Proof.
  intros Hwf. destruct c as [|id|].
  - rewrite exec_init. intros [= _ <-]. exact wf_initial.
  - rewrite exec_add_node.
    destruct (graph_add_node id g) as [[r g1]|e] eqn:H; [|discriminate].
    intros [= _ <-]. exact (add_node_wf id g r g1 Hwf H).
  - rewrite exec_edge_count. intros [= _ <-]. exact Hwf.
Qed.

Lemma exec_nodes_nonneg c g v g' :
  0 <= nodes g -> exec c g = Ok (v, g') -> 0 <= nodes g'.
Proof.
  intros Hpos. destruct c as [|id|].
  - rewrite exec_init. intros [= _ <-]. reflexivity.
  - rewrite exec_add_node.
    destruct (graph_add_node id g) as [[r g1]|e] eqn:H; [|discriminate].
    intros [= _ <-]. apply add_node_inversion in H as (_ & -> & _ & _).
    cbn [nodes]. lia.
  - rewrite exec_edge_count. intros [= _ <-]. exact Hpos.
Qed.

Lemma reachable_facts g : reachable g -> wf g /\ inv g /\ 0 <= nodes g.
Proof.
  intros Hr. induction Hr as [|c g v g' _ (Hwf & Hinv & Hpos) Hc].
  - split; [exact wf_initial|]. split; [exact inv_initial|reflexivity].
  - split; [exact (exec_wf c g v g' Hwf Hc)|].
    split; [exact (inv_exec c g v g' Hinv Hc)|].
    exact (exec_nodes_nonneg c g v g' Hpos Hc).
Qed.

Lemma reachable_chain n :
  0 <= n -> n <= INT_MAX -> reachable (mkGraph n (Z.max (n - 1) 0)).
Proof.
  intros Hn. revert n Hn. apply (natlike_ind
    (fun n => n <= INT_MAX -> reachable (mkGraph n (Z.max (n - 1) 0)))).
  - intros _. exact reach_initial.
  - intros n Hn IH Hmax.
    assert (Hle : n <= INT_MAX) by lia. specialize (IH Hle).
    apply (reach_step (CAddNode 0) (mkGraph n (Z.max (n - 1) 0))
             (VInt (n + 1))); [exact IH|].
    rewrite exec_add_node, add_node_ok.
    + cbn [nodes edges]. do 2 f_equal.
      destruct (Z.gtb_spec (n + 1) 1); f_equal; lia.
    + split; cbn [nodes edges]; apply in_range_spec;
        rewrite INT_MIN_eq, INT_MAX_eq in *; lia.
    + split; cbn [nodes edges]; rewrite INT_MAX_eq in *; lia.
Qed.

(** X9: the states a caller can reach from program start are exactly those
    with [0 <= nodes <= INT_MAX] and [edges = max (nodes - 1) 0]: one state
    per node count, and neither counter is ever negative. *)
Theorem reachable_iff (g : graph) :
  reachable g <->
  0 <= nodes g <= INT_MAX /\ edges g = Z.max (nodes g - 1) 0.
Proof.
  split.
  - intros Hr. destruct (reachable_facts g Hr) as ([Hn _] & Hinv & Hpos).
    apply in_range_spec in Hn. split; [lia|exact Hinv].
  - intros [[Hpos Hmax] He]. destruct g as [n e]. cbn [nodes edges] in *.
    subst e. exact (reachable_chain n Hpos Hmax).
Qed.

(** X10: in a reachable state [graph_add_node] overflows exactly when
    [nodes] is [INT_MAX]; the increment of [edges] never overflows there,
    since [edges] stays below [nodes]. *)
Theorem overflow_only_at_int_max (g : graph) (id : Z) (Hr : reachable g) :
  graph_add_node id g = Err CounterOverflow <-> nodes g = INT_MAX.
Proof.
  destruct (reachable_facts g Hr) as (Hwf & Hinv & Hpos).
  pose proof Hwf as [Hn _]. apply in_range_spec in Hn.
  unfold inv in Hinv. split.
  - intros Herr. destruct (Z.eq_dec (nodes g) INT_MAX) as [|Hne]; [assumption|].
    rewrite add_node_ok in Herr; [discriminate|exact Hwf|].
    unfold no_overflow. lia.
  - intros Hmax. apply add_node_overflow; [exact Hwf|].
    unfold no_overflow. lia.
Qed.

Lemma overflow_only_at_int_max_witness :
  graph_add_node 1 (mkGraph INT_MAX (INT_MAX - 1)) = Err CounterOverflow <->
  nodes (mkGraph INT_MAX (INT_MAX - 1)) = INT_MAX.
Proof.
  apply (overflow_only_at_int_max (mkGraph INT_MAX (INT_MAX - 1)) 1).
  apply (reachable_chain INT_MAX); discriminate.
Defined.

(** ** Counting and reading *)

Lemma run_state_cons c cs g :
  run_state (c :: cs) g =
  match exec c g with
  | Ok (_, g1) => run_state cs g1
  | Err e => Err e
  end.
Proof.
  unfold run_state. cbn [trace].
  destruct (exec c g) as [[v g1]|e]; [|reflexivity].
  destruct (trace cs g1) as [tr|e]; [|reflexivity].
  rewrite final_cons. reflexivity.
Qed.

(** X11: along any mix of [graph_add_node] and [graph_edge_count] calls with
    no [graph_init] among them, [nodes] grows by exactly the number of
    [graph_add_node] calls made. *)
Theorem nodes_counts_insertions (cs : list call) (g g' : graph)
  (Hni : forallb (fun c => negb (is_init c)) cs = true)
  (Hrun : run_state cs g = Ok g') :
  nodes g' = nodes g + Z.of_nat (length (filter is_add_node cs)).
Proof.
  revert g g' Hni Hrun. induction cs as [|c cs IH]; intros g g' Hni.
  - intros [= <-]. cbn. lia.
  - cbn [forallb] in Hni. apply andb_true_iff in Hni as [Hc Hni].
    rewrite run_state_cons. destruct c as [|id|]; [discriminate Hc| |].
    + rewrite exec_add_node.
      destruct (graph_add_node id g) as [[r g1]|e] eqn:Hadd; [|discriminate].
      intros Hrun. rewrite (IH g1 g' Hni Hrun).
      apply add_node_inversion in Hadd as (_ & -> & _ & _).
      cbn [filter is_add_node length nodes]. rewrite Nat2Z.inj_succ. lia.
    + rewrite exec_edge_count. intros Hrun. exact (IH g g' Hni Hrun).
Qed.

Lemma nodes_counts_insertions_witness :
  nodes (mkGraph 5 4) =
  nodes (mkGraph 2 1) +
  Z.of_nat (length (filter is_add_node
                      [CAddNode 4; CEdgeCount; CAddNode 4; CEdgeCount; CAddNode 0])).
Proof.
  apply (nodes_counts_insertions
           [CAddNode 4; CEdgeCount; CAddNode 4; CEdgeCount; CAddNode 0]
           (mkGraph 2 1) (mkGraph 5 4)); reflexivity.
Defined.

(** X12: [graph_edge_count] calls are invisible to the counters: dropping
    all of them from any sequence of calls gives the same final counters, or
    the same overflow. *)
Theorem edge_count_calls_transparent (cs : list call) (g : graph) :
  run_state (filter (fun c => negb (is_edge_count c)) cs) g = run_state cs g.
Proof.
  revert g. induction cs as [|c cs IH]; intros g; [reflexivity|].
  destruct c as [|id|]; cbn [filter is_edge_count negb].
  - rewrite !run_state_cons. destruct (exec CInit g) as [[v g1]|e]; [apply IH|reflexivity].
  - rewrite !run_state_cons.
    destruct (exec (CAddNode id) g) as [[v g1]|e]; [apply IH|reflexivity].
  - rewrite run_state_cons, exec_edge_count. apply IH.
Qed.
